(** * merge-interval: the interval merger of [src/main.cpp]

    A shallow embedding of [merge], [printIntervals] and [testMerge]
    and the properties of the merged vector: coverage, separation of the
    survivors, independence of the input order, idempotence, value semantics
    of the argument, what the test function compares and returns, what the
    printed lines tell, and what happens to reversed intervals. *)

From Stdlib Require Import Ascii.
From stdpp Require Import base option list numbers strings pretty.

Local Open Scope Z_scope.

(** ** Data model *)

(** [class Interval { int min; int max; }].  The code only compares and copies
    the two bounds, it never computes with them, so an [int] is a [Z]. *)
Record Interval : Type := mkInterval { min : Z; max : Z }.

Global Instance Interval_eq_dec : EqDecision Interval.
Proof. solve_decision. Defined.

(** The two vectors that are alive during a call [merge(X)]: the caller's
    vector [X], and the by-value parameter [list] of [merge], which starts as
    a copy of it.  Every read and write of the body of [merge] goes to the
    parameter. *)
Record Mem : Type := mkMem {
  caller_vec : list Interval;
  mlist : list Interval
}.

(** [list.erase(it)]: the element at position [it] is removed, the later
    ones move one position down. *)
Definition erase (it : nat) (m : Mem) : Mem :=
  {| caller_vec := caller_vec m; mlist := delete it (mlist m) |}.

(** Lines 82-83: both bounds of the element under [iter] are overwritten. *)
Definition assign (iter : nat) (v : Interval) (m : Mem) : Mem :=
  {| caller_vec := caller_vec m; mlist := <[iter := v]> (mlist m) |}.

(** Entering [merge(X)] copies the argument into the parameter. *)
Definition enter (X : list Interval) : Mem :=
  {| caller_vec := X; mlist := X |}.

(** ** The two conditions of the inner loop *)

(** Line 69: the visited interval lies inside the compared one. *)
Definition is_subset (cur comp : Interval) : Prop :=
  min cur >= min comp ∧ max cur <= max comp.

(** Lines 77-78: the upper bound of the visited interval lies inside the
    compared one and its lower bound is strictly below. *)
Definition overlaps_below (cur comp : Interval) : Prop :=
  min comp <= max cur ∧ max cur <= max comp ∧ min cur < min comp.

(** ** The loops

    Iterators are positions counted from [list.begin()].  The outer iterator
    runs down to the position before the first one, so it is a [Z]; the inner
    one only runs upwards and is a [nat].  [fuel] bounds the number of
    iterations of a loop; [None] is a run that used it up or read a position
    outside the vector. *)

(** Lines 60-89, from position [iter] on. *)
Fixpoint scan (fuel : nat) (it : nat) (currentInterval : Interval)
    (iter : nat) (m : Mem) : option Mem :=
  match fuel with
  | O => None
  | S fuel' =>
    if decide (iter < length (mlist m))%nat then
      if decide (it = iter) then
        scan fuel' it currentInterval (S iter) m
      else
        compInterval ← mlist m !! iter;
        if decide (is_subset currentInterval compInterval) then
          Some (erase it m)
        else if decide (overlaps_below currentInterval compInterval) then
          Some (erase it
                  (assign iter
                     (mkInterval (min currentInterval) (max compInterval)) m))
        else scan fuel' it currentInterval (S iter) m
    else Some m
  end.

(** [it >= list.begin()] (line 57) compares two addresses.  A vector that
    owns storage begins at the address of that storage, and the position
    before its first element lies below it.  A vector that owns none begins
    at the null pointer: the address of the position before it wraps around
    to the top of the address space and compares above. *)
Definition not_before_begin (owns_storage : bool) (it : Z) : Prop :=
  0 <= it ∨ owns_storage = false.

Global Instance not_before_begin_dec owns_storage it :
  Decision (not_before_begin owns_storage it).
Proof. unfold not_before_begin. apply _. Defined.

(** The element under the outer iterator (line 59); there is none when the
    iterator is outside the vector. *)
Definition element_at (l : list Interval) (it : Z) : option Interval :=
  if decide (0 <= it) then l !! Z.to_nat it else None.

(** Lines 57-90, from position [it] on.  Erasing keeps the storage of the
    vector, so whether it owns any is fixed for the whole loop. *)
Fixpoint sweep (fuel : nat) (owns_storage : bool) (it : Z) (m : Mem)
    : option Mem :=
  match fuel with
  | O => None
  | S fuel' =>
    if decide (not_before_begin owns_storage it) then
      currentInterval ← element_at (mlist m) it;
      m' ← scan fuel' (Z.to_nat it) currentInterval 0%nat m;
      sweep fuel' owns_storage (it - 1) m'
    else Some m
  end.

(** [merge(X)] with a bound on the loops: the memory when it returns.  The
    parameter is a copy of [X]; the copy of a vector with elements owns the
    storage they are in, the copy of an empty vector owns none.  So on the
    empty vector the loop is entered at [list.end() - 1], and line 59 reads
    outside the vector. *)
Definition merge_run (fuel : nat) (X : list Interval) : option Mem :=
  sweep fuel (bool_decide (X ≠ [])) (Z.of_nat (length X) - 1) (enter X).

(** The fuel that always suffices for a vector with elements (see
    [merge_run_enough]). *)
Definition merge_fuel (X : list Interval) : nat := (2 * length X + 1)%nat.

(** [merge(X)]: the returned vector.  On the empty vector, where the call
    does not return, it stands for the vector as it was passed, so that the
    properties of the returned vector are stated for every [X]. *)
Definition merge (X : list Interval) : list Interval :=
  from_option mlist X (merge_run (merge_fuel X) X).

(** ** [printIntervals] and [testMerge]

    [std::cout] is the list of the lines written to it. *)

(** Lines 29-35. *)
Definition printIntervals (intervals : list Interval) : list string :=
  (λ interval,
     "[" +:+ pretty (min interval) +:+ "," +:+ pretty (max interval) +:+ "]")
  <$> intervals.

(** The lambda of lines 118-119. *)
Definition same_bounds (a b : Interval) : bool :=
  bool_decide (min a = min b ∧ max a = max b).

(** [std::equal(first1, last1, first2, pred)]: the two ranges are walked
    together until the first one ends or a pair fails [pred].  The second
    range is given by its start alone; [None] is a walk that leaves it. *)
Fixpoint std_equal {A B : Type} (pred : A → B → bool)
    (range1 : list A) (range2 : list B) : option bool :=
  match range1, range2 with
  | [], _ => Some true
  | a :: range1', b :: range2' =>
    if pred a b then std_equal pred range1' range2' else Some false
  | _ :: _, [] => None
  end.

(** What a call of [testMerge] leaves behind: the lines on the console and
    the value handed to the caller by a [return] statement, if one ran. *)
Record Outcome : Type := mkOutcome {
  console : list string;
  returned : option bool
}.

Definition start_line : string := "************ Start Test ************".
Definition failed_line : string := "************ Test Failed ************".
Definition stars_line : string := "*************************************".
Definition unequal_line : string :=
  "Result set is not equal to the expected set".
Definition success_line : string :=
  "************ Test Successfull ************".

(** Lines 102-135.  The body has no [return] statement, on any of the three
    branches, so [returned] stays empty. *)
Definition testMerge (input expected : list Interval) (verbose : bool)
    : option Outcome :=
  let result := merge input in
  let shown :=
    if verbose then
      ["----------- Input ----------"] ++ printIntervals input ++
      ["----------- Result ----------"] ++ printIntervals result ++
      ["----------- Expected ----------"] ++ printIntervals expected
    else [] in
  equal ← std_equal same_bounds result expected;
  let verdict :=
    if decide (length result ≠ length expected) then
      [failed_line;
       "Result set size: " +:+ pretty (length result) +:+
       ", Expected set size: " +:+ pretty (length expected);
       stars_line]
    else if negb equal then [failed_line; unequal_line; stars_line]
    else [success_line] in
  Some {| console := [start_line] ++ shown ++ verdict; returned := None |}.


(** ** Vocabulary of the properties *)

Definition iv (a b : Z) : Interval := mkInterval a b.

(** Well-formed: the lower bound is not above the upper one. *)
Definition wf (i : Interval) : Prop := min i <= max i.

(** The integer [z] lies in the closed range of some interval of [X]. *)
Definition covered (X : list Interval) (z : Z) : Prop :=
  ∃ i, i ∈ X ∧ min i <= z ∧ z <= max i.

(** [c] reaches from [a] or below up to [b] or above. *)
Definition covers (c : Interval) (a b : Z) : Prop := min c <= a ∧ b <= max c.

Definition covered2 (X : list Interval) (a b : Z) : Prop :=
  ∃ i, i ∈ X ∧ covers i a b.

(** [P] lies inside [Q] (the containment of the glossary). *)
Definition contained (P Q : Interval) : Prop :=
  min Q <= min P ∧ max P <= max Q.

(** One of the two collapse rules applies to the pair, [A] in the role of
    the visited interval. *)
Definition mergeable (A B : Interval) : Prop :=
  is_subset A B ∨ overlaps_below A B.

(** The ranges neither overlap nor share an end point. *)
Definition separated (P Q : Interval) : Prop :=
  max P < min Q ∨ max Q < min P.

(** Equal as unordered sets of (min,max) pairs. *)
Definition set_equal (l1 l2 : list Interval) : Prop :=
  ∀ i, i ∈ l1 ↔ i ∈ l2.

(** The point whose coverage decides whether an interval that was visited
    may stay: its upper bound, paired with the larger of its two bounds. *)
Definition key_lo (i : Interval) : Z := Z.max (min i) (max i).

(** No interval of [l] at a position above [it] has its key covered by
    another element of [l]. *)
Definition settled (it : Z) (l : list Interval) : Prop :=
  ∀ p q P Q, it < Z.of_nat p → p ≠ q →
    l !! p = Some P → l !! q = Some Q → ¬ covers Q (key_lo P) (max P).

(** What one run of the inner loop, started at [iter], does to the memory. *)
Inductive scan_post (it : nat) (cur : Interval) (iter : nat) (m : Mem)
    : Mem → Prop :=
  | scan_post_none :
      (∀ j comp, (iter ≤ j)%nat → j ≠ it → mlist m !! j = Some comp →
         ¬ is_subset cur comp ∧ ¬ overlaps_below cur comp) →
      scan_post it cur iter m m
  | scan_post_subset j comp :
      (iter ≤ j)%nat → j ≠ it → mlist m !! j = Some comp →
      is_subset cur comp →
      scan_post it cur iter m (erase it m)
  | scan_post_overlap j comp :
      (iter ≤ j)%nat → j ≠ it → mlist m !! j = Some comp →
      ¬ is_subset cur comp → overlaps_below cur comp →
      scan_post it cur iter m
        (erase it (assign j (mkInterval (min cur) (max comp)) m)).

(** An interval of the output, described by the input alone: a well-formed
    one is a maximal run of covered points and covered unit steps, a
    reversed one is covered and no wider pair is. *)
Definition component (X : list Interval) (i : Interval) : Prop :=
  (min i <= max i ∧ covered2 X (min i) (min i) ∧
     (∀ z, min i <= z < max i → covered2 X z (z + 1)) ∧
     ¬ covered2 X (min i - 1) (min i) ∧ ¬ covered2 X (max i) (max i + 1)) ∨
  (max i < min i ∧ covered2 X (min i) (max i) ∧
     ¬ covered2 X (min i - 1) (max i) ∧ ¬ covered2 X (min i) (max i + 1)).

(** ** Vocabulary of the further properties *)

Global Instance wf_dec (i : Interval) : Decision (wf i).
Proof. unfold wf. apply _. Defined.

Global Instance separated_dec (P Q : Interval) : Decision (separated P Q).
Proof. unfold separated. apply _. Defined.

(** Reversed (malformed): the upper bound is below the lower one. *)
Definition reversed (i : Interval) : Prop := max i < min i.

(** The smallest interval that holds both. *)
Definition hull (A B : Interval) : Interval :=
  mkInterval (Z.min (min A) (min B)) (Z.max (max A) (max B)).

(** Any two intervals at different positions are strictly apart. *)
Definition pairwise_separated (X : list Interval) : Prop :=
  ∀ p q P Q, p ≠ q → X !! p = Some P → X !! q = Some Q → separated P Q.

(** [comp], at position [j], is the first element other than the visited one
    that one of the two rules applies to. *)
Definition first_match (it : nat) (cur : Interval) (l : list Interval)
    (j : nat) (comp : Interval) : Prop :=
  j ≠ it ∧ l !! j = Some comp ∧ mergeable cur comp ∧
  ∀ k c, (k < j)%nat → k ≠ it → l !! k = Some c → ¬ mergeable cur c.

(** The character [c] does not occur in [s]. *)
Fixpoint lacks (c : ascii) (s : string) : Prop :=
  match s with
  | EmptyString => True
  | String c' s' => c' ≠ c ∧ lacks c s'
  end.

(** * Properties *)

(** ** The scenarios of the test battery *)

Example merge_scenario_1 :
  merge [iv 25 30; iv 2 19; iv 14 23; iv 4 8] = [iv 25 30; iv 2 23].
Proof. vm_compute. reflexivity. Qed.

Example merge_scenario_6 :
  merge [iv 3 30; iv 10 20; iv 3 30; iv 1 2; iv 27 40] = [iv 1 2; iv 3 40].
Proof. vm_compute. reflexivity. Qed.

(** The ten inputs of the test battery (lines 146-198), each with the
    vector it expects.  On each of them [merge] returns the expected vector,
    in the expected order. *)
Example test_battery :
  Forall (λ t, merge t.1 = t.2)
    [ ([iv 25 30; iv 2 19; iv 14 23; iv 4 8], [iv 25 30; iv 2 23]);
      ([iv 1 5; iv 5 10], [iv 1 10]);
      ([iv 1 4; iv 5 10], [iv 1 4; iv 5 10]);
      ([iv 1 4; iv 2 4], [iv 1 4]);
      ([iv 1 4; iv 2 5], [iv 1 5]);
      ([iv 1 3; iv 1 4], [iv 1 4]);
      ([iv 1 4; iv 1 4], [iv 1 4]);
      ([iv 1 3; iv 2 4; iv 3 5], [iv 1 5]);
      ([iv 3 30; iv 10 20; iv 3 30; iv 1 2; iv 27 40], [iv 1 2; iv 3 40]);
      ([iv 3 30], [iv 3 30]) ].
Proof. repeat constructor. Qed.

(** A parameter that was moved in keeps its storage also when it is empty;
    the loop is then left at once and the empty vector returned.  A copy of
    the empty vector, as [merge_run] makes it, owns none. *)
Example sweep_empty_with_storage :
  sweep 1 true (-1) (enter []) = Some (enter []) ∧
  sweep 1 false (-1) (enter []) = None.
Proof. split; vm_compute; reflexivity. Qed.

Example testMerge_scenario_2 :
  testMerge [iv 1 5; iv 5 10] [iv 1 10] false
  = Some {| console := [start_line; success_line]; returned := None |}.
Proof. vm_compute. reflexivity. Qed.

Example printIntervals_example :
  printIntervals [iv 1 5; iv (-3) 10] = ["[1,5]"; "[-3,10]"]%string.
Proof. vm_compute. reflexivity. Qed.

(** ** The inner loop *)

Lemma scan_post_weaken it cur iter m m' :
  scan_post it cur (S iter) m m' →
  (∀ comp, iter ≠ it → mlist m !! iter = Some comp →
     ¬ is_subset cur comp ∧ ¬ overlaps_below cur comp) →
  scan_post it cur iter m m'.
Proof.
  intros Hpost Hhere. destruct Hpost as [Hall | j comp ? ? ? ? | j comp ? ? ? ? ?].
  - apply scan_post_none. intros j comp Hle Hne Hj.
    destruct (decide (j = iter)) as [-> | ?]; [by apply Hhere |].
    apply (Hall j); [lia | done | done].
  - apply (scan_post_subset it cur iter m j comp); [lia | done ..].
  - apply (scan_post_overlap it cur iter m j comp); [lia | done ..].
Qed.

Lemma scan_spec fuel it cur iter m m' :
  scan fuel it cur iter m = Some m' → scan_post it cur iter m m'.
Proof.
  revert iter. induction fuel as [| fuel IH]; intros iter; simpl; [done |].
  case_decide as Hlt.
  - case_decide as Hit.
    + intros Hrun. apply scan_post_weaken; [by apply IH |]. congruence.
    + destruct (mlist m !! iter) as [comp |] eqn:Hcomp; simpl; [| done].
      case_decide as Hsub.
      * intros [= <-]. by apply (scan_post_subset it cur iter m iter comp).
      * case_decide as Hov.
        -- intros [= <-]. by apply (scan_post_overlap it cur iter m iter comp).
        -- intros Hrun. apply scan_post_weaken; [by apply IH |].
           intros comp' _ Hcomp'. by simplify_eq.
  - intros [= <-]. apply scan_post_none. intros j comp Hle _ Hj.
    apply lookup_lt_Some in Hj. lia.
Qed.

Lemma scan_enough fuel it cur iter m :
  (length (mlist m) - iter < fuel)%nat → is_Some (scan fuel it cur iter m).
Proof.
  revert iter. induction fuel as [| fuel IH]; intros iter Hfuel; simpl; [lia |].
  case_decide as Hlt; [| done].
  case_decide as Hit; [apply IH; lia |].
  destruct (lookup_lt_is_Some_2 (mlist m) iter Hlt) as [comp ->]. simpl.
  repeat case_decide; try done. apply IH; lia.
Qed.

Lemma scan_fuel_mono fuel fuel' it cur iter m m' :
  scan fuel it cur iter m = Some m' → (fuel ≤ fuel')%nat →
  scan fuel' it cur iter m = Some m'.
Proof.
  revert fuel' iter. induction fuel as [| fuel IH]; intros fuel' iter; [done |].
  intros Hrun Hle. destruct fuel' as [| fuel']; [lia |]. simpl in *.
  case_decide; [| done].
  case_decide; [apply IH; [done | lia] |].
  destruct (mlist m !! iter) as [comp |]; simpl in *; [| done].
  repeat case_decide; try done. apply IH; [done | lia].
Qed.

Lemma scan_post_length it cur iter m m' :
  scan_post it cur iter m m' → (it < length (mlist m))%nat →
  m' = m ∨ length (mlist m') = (length (mlist m) - 1)%nat.
Proof.
  intros [] Hit; [by left | right ..]; simpl.
  - rewrite length_delete; [done |]. by apply lookup_lt_is_Some_2.
  - rewrite length_delete, length_insert; [done |].
    apply lookup_lt_is_Some_2. by rewrite length_insert.
Qed.

Lemma scan_post_caller it cur iter m m' :
  scan_post it cur iter m m' → caller_vec m' = caller_vec m.
Proof. intros Hpost. destruct Hpost; reflexivity. Qed.

(** ** The outer loop *)

(** The proof rule of the outer loop: a property that every visit keeps
    holds when the loop is left, which is below position 0. *)
Lemma sweep_invariant (Inv : Z → Mem → Prop) :
  (∀ it m cur m', 0 <= it → mlist m !! Z.to_nat it = Some cur →
     scan_post (Z.to_nat it) cur 0 m m' → Inv it m → Inv (it - 1) m') →
  ∀ fuel owns it m m',
    sweep fuel owns it m = Some m' → -1 <= it → Inv it m → Inv (-1) m'.
Proof.
  intros Hstep. induction fuel as [| fuel IH]; intros owns it m m'; simpl;
    [done |].
  case_decide as Hit.
  - unfold element_at. case_decide as Hpos; simpl; [| done].
    destruct (mlist m !! Z.to_nat it) as [cur |] eqn:Hcur; simpl; [| done].
    destruct (scan fuel (Z.to_nat it) cur 0 m) as [m1 |] eqn:Hscan;
      simpl; [| done].
    intros Hrun _ Hinv. apply (IH owns (it - 1) m1 m'); [done | lia |].
    apply (Hstep it m cur m1); [done | done | by eapply scan_spec | done].
  - intros [= <-] Hge Hinv. unfold not_before_begin in Hit.
    by replace (-1) with it by lia.
Qed.

Lemma sweep_enough fuel it m :
  -1 <= it < Z.of_nat (length (mlist m)) →
  (Z.to_nat (it + 1) + length (mlist m) + 1 ≤ fuel)%nat →
  is_Some (sweep fuel true it m).
Proof.
  revert it m. induction fuel as [| fuel IH]; intros it m Hit Hfuel;
    simpl; [lia |].
  unfold not_before_begin, element_at.
  case_decide as Hpos; [| done].
  assert (Hge : 0 <= it) by (destruct Hpos; [done | congruence]).
  rewrite decide_True by done.
  assert (Hlt : (Z.to_nat it < length (mlist m))%nat) by lia.
  destruct (lookup_lt_is_Some_2 _ _ Hlt) as [cur ->]. simpl.
  destruct (scan_enough fuel (Z.to_nat it) cur 0 m) as [m1 Hscan]; [lia |].
  rewrite Hscan. simpl.
  destruct (scan_post_length _ _ _ _ _ (scan_spec _ _ _ _ _ _ Hscan) Hlt)
    as [-> | Hlen]; apply IH; lia.
Qed.

Lemma sweep_fuel_mono fuel fuel' owns it m m' :
  sweep fuel owns it m = Some m' → (fuel ≤ fuel')%nat →
  sweep fuel' owns it m = Some m'.
Proof.
  revert fuel' it m. induction fuel as [| fuel IH]; intros fuel' it m; [done |].
  intros Hrun Hle. destruct fuel' as [| fuel']; [lia |]. simpl in *.
  case_decide; [| done].
  destruct (element_at (mlist m) it) as [cur |]; simpl in *; [| done].
  destruct (scan fuel (Z.to_nat it) cur 0 m) as [m1 |] eqn:Hscan;
    simpl in *; [| done].
  rewrite (scan_fuel_mono fuel fuel' _ _ _ _ m1) by (done || lia). simpl.
  apply IH; [done | lia].
Qed.

(** A vector that owns no storage: the loop is entered below position 0 and
    reads outside the vector. *)
Lemma sweep_without_storage fuel it m :
  it < 0 → sweep fuel false it m = None.
Proof.
  intros Hit. destruct fuel as [| fuel]; simpl; [done |].
  unfold not_before_begin, element_at.
  rewrite decide_True by by right. by rewrite decide_False by lia.
Qed.

(** ** [merge] as a function *)

Lemma merge_run_empty fuel : merge_run fuel [] = None.
Proof. unfold merge_run. simpl. by apply sweep_without_storage. Qed.

Lemma merge_run_total X :
  X ≠ [] → ∃ m, merge_run (merge_fuel X) X = Some m ∧ mlist m = merge X.
Proof.
  intros HX. unfold merge, merge_run. rewrite bool_decide_eq_true_2 by done.
  destruct (sweep_enough (merge_fuel X) (Z.of_nat (length X) - 1) (enter X))
    as [m Hm]; [simpl; lia | unfold merge_fuel; simpl; lia |].
  exists m. split; [done |]. by rewrite Hm.
Qed.

Lemma merge_run_enough X fuel :
  X ≠ [] → (merge_fuel X ≤ fuel)%nat →
  mlist <$> merge_run fuel X = Some (merge X).
Proof.
  intros HX Hle. destruct (merge_run_total X HX) as (m & Hm & <-).
  unfold merge_run in *. by rewrite (sweep_fuel_mono _ fuel _ _ _ _ Hm Hle).
Qed.

(** A property of the memory that holds on entry and that every visit keeps
    holds of the memory [merge] returns with. *)
Lemma merge_invariant (Inv : Z → Mem → Prop) X :
  (∀ it m cur m', 0 <= it → mlist m !! Z.to_nat it = Some cur →
     scan_post (Z.to_nat it) cur 0 m m' → Inv it m → Inv (it - 1) m') →
  Inv (Z.of_nat (length X) - 1) (enter X) →
  ∃ m, (X ≠ [] → merge_run (merge_fuel X) X = Some m) ∧
       mlist m = merge X ∧ Inv (-1) m.
Proof.
  intros Hstep Hentry. destruct (decide (X = [])) as [-> | HX].
  - exists (enter []). split_and!; [done | | done].
    unfold merge. by rewrite merge_run_empty.
  - destruct (merge_run_total X HX) as (m & Hm & Hlist).
    exists m. split_and!; [done .. |].
    apply (sweep_invariant Inv Hstep _ _ _ _ _ Hm); [lia | done].
Qed.

(** ** What a visit does to the vector *)

Lemma elem_of_delete_lookup (l : list Interval) it x :
  x ∈ delete it l ↔ ∃ k, k ≠ it ∧ l !! k = Some x.
Proof.
  rewrite list_elem_of_lookup. split.
  - intros [k Hk]. rewrite list_lookup_delete in Hk.
    eexists. split; [| exact Hk]. case_decide; lia.
  - intros (k & Hne & Hk). destruct (decide (k < it)%nat).
    + exists k. by rewrite list_lookup_delete_lt.
    + exists (Nat.pred k). rewrite list_lookup_delete_ge by lia.
      by replace (S (Nat.pred k)) with k by lia.
Qed.

(** The three ways a visit of position [it] can end, in terms of the
    elements of the vector. *)
Lemma visit_elements it cur m m' :
  mlist m !! it = Some cur → scan_post it cur 0 m m' →
  (m' = m ∧
     ∀ j comp, j ≠ it → mlist m !! j = Some comp →
       ¬ is_subset cur comp ∧ ¬ overlaps_below cur comp) ∨
  (∃ j comp, j ≠ it ∧ mlist m !! j = Some comp ∧ is_subset cur comp ∧
     mlist m' = delete it (mlist m) ∧
     ∀ x, x ∈ mlist m' ↔ ∃ k, k ≠ it ∧ mlist m !! k = Some x) ∨
  (∃ j comp, j ≠ it ∧ mlist m !! j = Some comp ∧
     ¬ is_subset cur comp ∧ overlaps_below cur comp ∧
     mlist m' = delete it (<[j := mkInterval (min cur) (max comp)]> (mlist m)) ∧
     ∀ x, x ∈ mlist m' ↔
       x = mkInterval (min cur) (max comp) ∨
       ∃ k, k ≠ it ∧ k ≠ j ∧ mlist m !! k = Some x).
Proof.
  intros Hcur [Hall | j comp _ Hne Hj Hsub | j comp _ Hne Hj Hnsub Hov].
  - left. split; [done |]. intros j comp. apply Hall. lia.
  - right. left. exists j, comp. split_and!; try done.
    intros x. apply elem_of_delete_lookup.
  - right. right. exists j, comp. split_and!; try done.
    intros x. simpl. rewrite elem_of_delete_lookup.
    assert (Hlen : (j < length (mlist m))%nat) by by eapply lookup_lt_Some.
    split.
    + intros (k & Hk & Hx). destruct (decide (k = j)) as [-> | Hkj].
      * rewrite list_lookup_insert_eq in Hx by done. left. congruence.
      * rewrite list_lookup_insert_ne in Hx by done. right. eauto.
    + intros [-> | (k & Hk & Hkj & Hx)].
      * exists j. split; [done |]. by rewrite list_lookup_insert_eq.
      * exists k. split; [done |]. by rewrite list_lookup_insert_ne.
Qed.

(** ** Coverage *)

Lemma covers_union cur comp a b :
  overlaps_below cur comp → b <= a + 1 →
  covers (mkInterval (min cur) (max comp)) a b ↔
  covers cur a b ∨ covers comp a b.
Proof. unfold overlaps_below, covers. simpl. lia. Qed.

Lemma covers_subset cur comp a b :
  is_subset cur comp → covers cur a b → covers comp a b.
Proof. unfold is_subset, covers. lia. Qed.

(** A visit keeps, for every pair [b <= a + 1], whether some element
    reaches from [a] to [b]. *)
Lemma visit_covered2 it cur m m' a b :
  mlist m !! it = Some cur → scan_post it cur 0 m m' → b <= a + 1 →
  covered2 (mlist m') a b ↔ covered2 (mlist m) a b.
Proof.
  intros Hcur Hpost Hab.
  destruct (visit_elements _ _ _ _ Hcur Hpost)
    as [[-> _] | [(j & comp & Hne & Hj & Hsub & _ & Hel)
                 | (j & comp & Hne & Hj & _ & Hov & _ & Hel)]]; [done | ..];
    unfold covered2; split.
  - intros (x & Hx & Hc). apply Hel in Hx as (k & _ & Hk).
    exists x. split; [| done]. apply list_elem_of_lookup. eauto.
  - intros (x & Hx & Hc). apply list_elem_of_lookup in Hx as [k Hk].
    destruct (decide (k = it)) as [-> | Hk'].
    + exists comp. split; [apply Hel; eauto |].
      apply covers_subset with cur; [done |]. congruence.
    + exists x. split; [apply Hel; eauto | done].
  - intros (x & Hx & Hc). apply Hel in Hx as [-> | (k & _ & _ & Hk)].
    + apply (covers_union cur comp a b Hov Hab) in Hc as [Hc | Hc].
      * exists cur. split; [apply list_elem_of_lookup; eauto | done].
      * exists comp. split; [apply list_elem_of_lookup; eauto | done].
    + exists x. split; [apply list_elem_of_lookup; eauto | done].
  - intros (x & Hx & Hc). apply list_elem_of_lookup in Hx as [k Hk].
    destruct (decide (k = it)) as [-> | Hkit];
      [| destruct (decide (k = j)) as [-> | Hkj]].
    + exists (mkInterval (min cur) (max comp)). split; [apply Hel; by left |].
      apply (covers_union cur comp a b Hov Hab). left. congruence.
    + exists (mkInterval (min cur) (max comp)). split; [apply Hel; by left |].
      apply (covers_union cur comp a b Hov Hab). right. congruence.
    + exists x. split; [apply Hel; right; eauto | done].
Qed.

Lemma merge_covered2 X a b :
  b <= a + 1 → covered2 (merge X) a b ↔ covered2 X a b.
Proof.
  intros Hab.
  destruct (merge_invariant
              (λ _ m, covered2 (mlist m) a b ↔ covered2 X a b) X)
    as (m & _ & <- & Hinv); [| done | done].
  intros it m cur m' _ Hcur Hpost <-. by eapply visit_covered2.
Qed.

(** ** Visited intervals stay apart from the rest *)

Lemma key_not_covered cur comp :
  ¬ is_subset cur comp → ¬ overlaps_below cur comp →
  ¬ covers comp (key_lo cur) (max cur).
Proof. unfold is_subset, overlaps_below, covers, key_lo. lia. Qed.

Lemma key_of_union cur comp Q :
  overlaps_below cur comp →
  covers Q (key_lo (mkInterval (min cur) (max comp))) (max comp) →
  covers Q (key_lo comp) (max comp).
Proof. unfold overlaps_below, covers, key_lo. simpl. lia. Qed.

Lemma key_under_union cur comp P :
  overlaps_below cur comp →
  covers (mkInterval (min cur) (max comp)) (key_lo P) (max P) →
  covers cur (key_lo P) (max P) ∨ covers comp (key_lo P) (max P).
Proof.
  intros Hov. apply covers_union; [done |]. unfold key_lo. lia.
Qed.

Lemma visit_settled it cur m m' :
  0 <= it → mlist m !! Z.to_nat it = Some cur →
  scan_post (Z.to_nat it) cur 0 m m' →
  settled it (mlist m) → settled (it - 1) (mlist m').
Proof.
  intros Hit Hcur Hpost Hset p q P Q Hp Hpq HP HQ Hcov.
  destruct (visit_elements _ _ _ _ Hcur Hpost)
    as [[-> Hall] | [(j & comp & Hne & Hj & Hsub & Hl' & _)
                    | (j & comp & Hne & Hj & _ & Hov & Hl' & _)]].
  - destruct (decide (p = Z.to_nat it)) as [-> | Hne].
    + assert (P = cur) as -> by congruence.
      destruct (Hall q Q) as [Hnsub Hnov]; [done .. |].
      by apply (key_not_covered cur Q).
    + apply (Hset p q P Q); [lia | done ..].
  - rewrite Hl' in HP, HQ.
    rewrite list_lookup_delete_ge in HP by lia.
    rewrite list_lookup_delete in HQ.
    eapply (Hset (S p)); [| | exact HP | exact HQ | exact Hcov];
      [lia | case_decide; lia].
  - rewrite Hl' in HP, HQ.
    rewrite list_lookup_delete_ge in HP by lia.
    rewrite list_lookup_delete in HQ.
    set (q' := if decide (q < Z.to_nat it)%nat then q else S q) in *.
    assert (Hq' : q' ≠ S p ∧ q' ≠ Z.to_nat it)
      by (unfold q'; case_decide; lia).
    assert (Hlen : (j < length (mlist m))%nat) by by eapply lookup_lt_Some.
    destruct (decide (S p = j)) as [Hpj | Hpj].
    + rewrite Hpj, list_lookup_insert_eq in HP by done.
      rewrite list_lookup_insert_ne in HQ by lia.
      injection HP as <-. simpl in Hcov.
      apply (Hset j q' comp Q); [lia | lia | done | done |].
      by apply (key_of_union cur).
    + rewrite list_lookup_insert_ne in HP by done.
      destruct (decide (q' = j)) as [Hqj | Hqj].
      * rewrite Hqj, list_lookup_insert_eq in HQ by done.
        injection HQ as <-.
        apply key_under_union in Hcov as [Hcov | Hcov]; [| | done].
        -- apply (Hset (S p) (Z.to_nat it) P cur); [lia | lia | done ..].
        -- apply (Hset (S p) j P comp); [lia | done ..].
      * rewrite list_lookup_insert_ne in HQ by done.
        apply (Hset (S p) q' P Q); [lia | lia | done ..].
Qed.

(** No interval of the output has its key covered by another one. *)
Lemma merge_settled X : settled (-1) (merge X).
Proof.
  destruct (merge_invariant (λ it m, settled it (mlist m)) X)
    as (m & _ & <- & Hinv); [| | done].
  - intros it m cur m'. apply visit_settled.
  - intros p q P Q Hp _ HP. apply lookup_lt_Some in HP. simpl in HP. lia.
Qed.

(** ** Well-formed intervals stay well-formed, bounds come from the input *)

Lemma visit_Forall (Good : Interval → Prop) it cur m m' :
  mlist m !! it = Some cur → scan_post it cur 0 m m' →
  (∀ comp, comp ∈ mlist m → overlaps_below cur comp →
     Good cur → Good comp → Good (mkInterval (min cur) (max comp))) →
  Forall Good (mlist m) → Forall Good (mlist m').
Proof.
  intros Hcur Hpost Hnew Hall. rewrite Forall_forall in Hall.
  assert (Hin : ∀ k x, mlist m !! k = Some x → x ∈ mlist m)
    by (intros; apply list_elem_of_lookup; eauto).
  destruct (visit_elements _ _ _ _ Hcur Hpost)
    as [[-> _] | [(j & comp & _ & Hj & _ & _ & Hel)
                 | (j & comp & _ & Hj & _ & Hov & _ & Hel)]];
    [by apply Forall_forall | ..]; apply Forall_forall; intros x Hx;
    apply Hel in Hx.
  - destruct Hx as (k & _ & Hk). eauto.
  - destruct Hx as [-> | (k & _ & _ & Hk)]; [| by eauto].
    apply Hnew; [| done | ..]; eauto.
Qed.

Lemma merge_Forall (Good : Interval → Prop) X :
  (∀ cur comp, overlaps_below cur comp →
     Good cur → Good comp → Good (mkInterval (min cur) (max comp))) →
  Forall Good X → Forall Good (merge X).
Proof.
  intros Hnew HX.
  destruct (merge_invariant (λ _ m, Forall Good (mlist m)) X)
    as (m & _ & <- & Hinv); [| done | done].
  intros it m cur m' _ Hcur Hpost. eapply visit_Forall; eauto.
Qed.

Lemma merge_wf X : Forall wf X → Forall wf (merge X).
Proof.
  apply merge_Forall. unfold overlaps_below, wf. simpl. lia.
Qed.

(** ** Consequences for the elements of a settled vector *)

Lemma settled_pair O P Q :
  settled (-1) O → P ∈ O → Q ∈ O →
  P = Q ∨
  (¬ covers Q (key_lo P) (max P) ∧ ¬ covers P (key_lo Q) (max Q)).
Proof.
  intros Hset [p HP]%list_elem_of_lookup [q HQ]%list_elem_of_lookup.
  destruct (decide (p = q)) as [-> | Hpq]; [left; congruence | right].
  split; [apply (Hset p q P Q) | apply (Hset q p Q P)]; done || lia.
Qed.

(** Two elements of a settled vector: they are one element, or neither key
    is covered by the other, which the bounds at hand then contradict. *)
Ltac apart Hset HP HQ :=
  destruct (settled_pair _ _ _ Hset HP HQ) as [-> | [? ?]];
  unfold covers, key_lo in *; lia.

Lemma interval_eq P Q : min P = min Q → max P = max Q → P = Q.
Proof. destruct P, Q. simpl. congruence. Qed.

(** The elements of a settled vector are its components. *)
Lemma settled_component O i : settled (-1) O → i ∈ O ↔ component O i.
Proof.
  intros Hset. split.
  - intros Hi. destruct (decide (min i <= max i)) as [Hwf | Hrev].
    + left. split_and!; [done | exists i; unfold covers; split; [done | lia] | ..].
      * intros z Hz. exists i. unfold covers. split; [done | lia].
      * intros (Q & HQ & Hc).
        apart Hset Hi HQ.
      * intros (Q & HQ & Hc).
        apart Hset Hi HQ.
    + right. split_and!; [lia | exists i; unfold covers; split; [done | lia] | ..].
      * intros (Q & HQ & Hc).
        apart Hset Hi HQ.
      * intros (Q & HQ & Hc).
        apart Hset Hi HQ.
  - intros [(Hwf & (P & HP & Hc) & Hsteps & Hlo & Hhi)
           | (Hrev & (P & HP & Hc) & Hlo & Hhi)].
    + assert (Hmin : min P = min i).
      { destruct (decide (min P = min i)) as [| Hne]; [done |].
        destruct Hlo. exists P. unfold covers in *. split; [done | lia]. }
      assert (Hmax : max P = max i).
      { destruct (Z.lt_trichotomy (max P) (max i)) as [Hlt | [| Hgt]];
          [| done |].
        - destruct (Hsteps (max P)) as (Q & HQ & HcQ);
            [unfold covers in *; lia |].
          apart Hset HP HQ.
        - destruct Hhi. exists P. unfold covers in *. split; [done | lia]. }
      by rewrite <- (interval_eq P i).
    + assert (Hmin : min P = min i).
      { destruct (decide (min P = min i)) as [| Hne]; [done |].
        destruct Hlo. exists P. unfold covers in *. split; [done | lia]. }
      assert (Hmax : max P = max i).
      { destruct (decide (max P = max i)) as [| Hne]; [done |].
        destruct Hhi. exists P. unfold covers in *. split; [done | lia]. }
      by rewrite <- (interval_eq P i).
Qed.

(** Being a component only depends on which pairs [b <= a + 1] are
    reached. *)
Lemma component_ext X Y i :
  (∀ a b, b <= a + 1 → covered2 X a b ↔ covered2 Y a b) →
  component X i ↔ component Y i.
Proof.
  intros Hext. unfold component.
  assert (Hsteps : (∀ z, min i <= z < max i → covered2 X z (z + 1)) ↔
                   (∀ z, min i <= z < max i → covered2 Y z (z + 1))).
  { split; intros H z Hz; apply Hext, H; lia. }
  rewrite Hsteps, !(Hext (min i) (min i)), !(Hext (min i - 1) (min i)),
    !(Hext (max i) (max i + 1)) by lia.
  split; (intros [? | (Hrev & H1 & H2 & H3)]; [by left | right]);
    (split; [done |]).
  - rewrite <- !Hext by lia. done.
  - rewrite !Hext by lia. done.
Qed.

(** The output of [merge] is the set of the components of its input. *)
Lemma merge_component X i : i ∈ merge X ↔ component X i.
Proof.
  rewrite (settled_component (merge X) i (merge_settled X)).
  apply component_ext. intros a b. apply merge_covered2.
Qed.

Lemma covered2_elements X Y a b :
  (∀ i, i ∈ X ↔ i ∈ Y) → covered2 X a b ↔ covered2 Y a b.
Proof.
  intros Hel. unfold covered2. split; intros (i & Hi & Hc); exists i;
    (split; [by apply Hel | done]).
Qed.

(** A settled vector is left as it is by every visit. *)
Lemma merge_of_settled O : settled (-1) O → merge O = O.
Proof.
  intros Hset.
  destruct (merge_invariant (λ _ m, mlist m = O) O)
    as (m & _ & <- & Hinv); [| done | done].
  intros it m cur m' Hit Hcur Hpost Hm.
  destruct (visit_elements _ _ _ _ Hcur Hpost)
    as [[-> _] | [(j & comp & Hne & Hj & Hsub & _)
                 | (j & comp & Hne & Hj & _ & Hov & _)]]; [done | exfalso ..];
    rewrite Hm in Hcur, Hj;
    apply (Hset (Z.to_nat it) j cur comp); try done; try lia;
    unfold is_subset, overlaps_below, covers, key_lo in *; lia.
Qed.

(** An input interval lies inside every output interval it shares a point
    with. *)
Lemma merge_absorbs X A P z :
  A ∈ X → covers A z z → P ∈ merge X → covers P z z → contained A P.
Proof.
  intros HA HAz HP HPz. split.
  - destruct (decide (min P <= min A)) as [| Hlt]; [done | exfalso].
    destruct (proj2 (merge_covered2 X (min P - 1) (min P) ltac:(lia)))
      as (Q & HQ & Hc).
    { exists A. unfold covers in *. split; [done | lia]. }
    pose proof (merge_settled X) as Hset. apart Hset HP HQ.
  - destruct (decide (max A <= max P)) as [| Hlt]; [done | exfalso].
    destruct (proj2 (merge_covered2 X (max P) (max P + 1) ltac:(lia)))
      as (Q & HQ & Hc).
    { exists A. unfold covers in *. split; [done | lia]. }
    pose proof (merge_settled X) as Hset. apart Hset HP HQ.
Qed.

(** ** The comparison of [testMerge] *)

Lemma same_bounds_eq a b : same_bounds a b = true ↔ a = b.
Proof.
  unfold same_bounds. rewrite bool_decide_eq_true. split.
  - intros [? ?]. by apply interval_eq.
  - by intros ->.
Qed.

Lemma std_equal_refl l : std_equal same_bounds l l = Some true.
Proof.
  induction l as [| a l IH]; simpl; [done |].
  by rewrite (proj2 (same_bounds_eq a a) eq_refl).
Qed.

Lemma std_equal_true result expected :
  std_equal same_bounds result expected = Some true →
  length result = length expected → result = expected.
Proof.
  revert expected. induction result as [| a result IH];
    intros [| b expected]; simpl; try done.
  destruct (same_bounds a b) eqn:Hab; [| done].
  apply same_bounds_eq in Hab as ->. intros Heq [= Hlen].
  f_equal. by apply IH.
Qed.



(** * The claims *)

(** C1.  For a well-formed input, two intervals at different positions of
    the vector [merge] returns are strictly apart (the upper bound of one is
    below the lower bound of the other), neither lies inside the other, and
    neither collapse rule applies to them in either role.  Two input
    intervals with the same lower bound end up inside one and the same
    output interval. *)
Theorem merge_output_is_fixed_point (X : list Interval) :
  Forall wf X →
  (∀ p q P Q, p ≠ q → merge X !! p = Some P → merge X !! q = Some Q →
     separated P Q ∧ ¬ contained P Q ∧ ¬ contained Q P ∧
     ¬ mergeable P Q ∧ ¬ mergeable Q P) ∧
  (∀ A B, A ∈ X → B ∈ X → min A = min B →
     ∃ O, O ∈ merge X ∧ contained A O ∧ contained B O).
Proof.
  intros HX. pose proof (merge_wf X HX) as Hwf.
  rewrite Forall_forall in Hwf, HX. split.
  - intros p q P Q Hpq HP HQ.
    assert (wf P ∧ wf Q) as [HwP HwQ]
      by (split; apply Hwf, list_elem_of_lookup; eauto).
    pose proof (merge_settled X p q P Q ltac:(lia) Hpq HP HQ) as H1.
    pose proof (merge_settled X q p Q P ltac:(lia) ltac:(done) HQ HP) as H2.
    unfold separated, contained, mergeable, is_subset, overlaps_below,
      covers, key_lo, wf in *. lia.
  - intros A B HA HB Hmin.
    assert (HAz : covers A (min A) (min A))
      by (specialize (HX A HA); unfold covers, wf in *; lia).
    assert (HBz : covers B (min A) (min A))
      by (specialize (HX B HB); unfold covers, wf in *; lia).
    destruct (proj2 (merge_covered2 X (min A) (min A) ltac:(lia)))
      as (O & HO & Hc); [by exists A |].
    exists O. split_and!; [done | ..]; by eapply merge_absorbs.
Qed.

Lemma merge_output_is_fixed_point_witness :
  Forall wf [iv 1 3; iv 1 4; iv 3 5; iv 7 9] ∧
  merge [iv 1 3; iv 1 4; iv 3 5; iv 7 9] = [iv 1 5; iv 7 9] ∧
  (∀ p q P Q, p ≠ q →
     merge [iv 1 3; iv 1 4; iv 3 5; iv 7 9] !! p = Some P →
     merge [iv 1 3; iv 1 4; iv 3 5; iv 7 9] !! q = Some Q →
     separated P Q ∧ ¬ contained P Q ∧ ¬ contained Q P ∧
     ¬ mergeable P Q ∧ ¬ mergeable Q P) ∧
  (∀ A B, A ∈ [iv 1 3; iv 1 4; iv 3 5; iv 7 9] →
     B ∈ [iv 1 3; iv 1 4; iv 3 5; iv 7 9] → min A = min B →
     ∃ O, O ∈ merge [iv 1 3; iv 1 4; iv 3 5; iv 7 9] ∧
          contained A O ∧ contained B O).
Proof.
  assert (Hwf : Forall wf [iv 1 3; iv 1 4; iv 3 5; iv 7 9])
    by (repeat constructor; unfold wf; simpl; lia).
  split; [exact Hwf |]. split; [vm_compute; reflexivity |].
  exact (merge_output_is_fixed_point _ Hwf).
Defined.

(** C2.  The integers covered by the output of [merge] are exactly the
    integers covered by its input (for every input, well-formed or not). *)
Theorem merge_preserves_coverage (X : list Interval) (z : Z) :
  covered (merge X) z ↔ covered X z.
Proof.
  pose proof (merge_covered2 X z z ltac:(lia)) as H.
  unfold covered, covered2, covers in *. exact H.
Qed.



(** C4.  The output of [merge] on a permutation of the input has the same
    intervals, as a set of (min,max) pairs, as the output on the input. *)
Theorem merge_order_independent (X X' : list Interval) :
  X ≡ₚ X' → set_equal (merge X') (merge X).
Proof.
  intros Hperm i. rewrite !merge_component. apply component_ext.
  intros a b _. apply covered2_elements. intros x. by rewrite Hperm.
Qed.

Lemma merge_order_independent_witness :
  [iv 2 19; iv 14 23] ≡ₚ [iv 14 23; iv 2 19] ∧
  set_equal (merge [iv 14 23; iv 2 19]) (merge [iv 2 19; iv 14 23]).
Proof.
  split; [apply perm_swap |].
  apply (merge_order_independent [iv 2 19; iv 14 23] [iv 14 23; iv 2 19]).
  apply perm_swap.
Defined.

(** C5.  Merging a merged vector returns it as it is, position by
    position; in particular the two are equal as sets. *)
Theorem merge_idempotent (X : list Interval) :
  merge (merge X) = merge X ∧ set_equal (merge (merge X)) (merge X).
Proof.
  assert (H : merge (merge X) = merge X)
    by apply merge_of_settled, merge_settled.
  split; [done |]. intros i. by rewrite H.
Qed.

(** C6.  Every run of [merge] leaves the caller's vector as it was on
    entry, and the two writes of the body leave it alone; on a vector with
    elements the run that returns the result of [merge] is one of them. *)
Theorem merge_leaves_caller_vector (X : list Interval) :
  (∀ it iter v m,
     caller_vec (erase it m) = caller_vec m ∧
     caller_vec (assign iter v m) = caller_vec m) ∧
  (∀ fuel m, merge_run fuel X = Some m → caller_vec m = X) ∧
  (X ≠ [] →
   ∃ m, merge_run (merge_fuel X) X = Some m ∧
        caller_vec m = X ∧ mlist m = merge X).
Proof.
  assert (Hrun : ∀ fuel m, merge_run fuel X = Some m → caller_vec m = X).
  { intros fuel m Hm.
    apply (sweep_invariant (λ _ m, caller_vec m = X)) in Hm;
      [done | | simpl; lia | done].
    intros it m0 cur m' _ _ Hpost <-. by eapply scan_post_caller. }
  split_and!; [done | done |]. intros HX.
  destruct (merge_run_total X HX) as (m & Hm & Hlist). exists m. eauto.
Qed.

(** C7.  On the empty vector the call of [merge] does not return the empty
    vector: with whatever fuel, the outer loop is entered at
    [list.end() - 1] and reads outside the vector.  A vector of one interval
    is returned as it is, the caller's vector untouched. *)
Theorem merge_empty_reads_outside_singleton_passes :
  (∀ fuel, merge_run fuel [] = None) ∧
  (∀ (i : Interval) fuel, (merge_fuel [i] ≤ fuel)%nat →
     merge_run fuel [i] = Some {| caller_vec := [i]; mlist := [i] |}).
Proof.
  split; [apply merge_run_empty |]. intros i fuel Hle.
  unfold merge_run.
  apply (sweep_fuel_mono (merge_fuel [i])); [| done].
  vm_compute. reflexivity.
Qed.

(** C8.  Every interval of the output has the lower bound of some input
    interval and the upper bound of some input interval; the one interval a
    run of the inner loop can add to the vector has the lower bound of the
    visited interval and the upper bound of a compared one. *)
Theorem merge_invents_no_bound (X : list Interval) :
  Forall (λ o, (∃ a, a ∈ X ∧ min o = min a) ∧ (∃ b, b ∈ X ∧ max o = max b))
         (merge X) ∧
  (∀ fuel it cur m m',
     mlist m !! it = Some cur → scan fuel it cur 0 m = Some m' →
     ∀ x, x ∈ mlist m' →
       x ∈ mlist m ∨
       ∃ comp, comp ∈ mlist m ∧ x = mkInterval (min cur) (max comp)).
Proof.
  split.
  - apply merge_Forall.
    + intros cur comp _ [(a & Ha & Hmin) _] [_ (b & Hb & Hmax)]. simpl.
      split; [by exists a | by exists b].
    + apply Forall_forall. intros x Hx. split; by exists x.
  - intros fuel it cur m m' Hcur Hscan x Hx.
    destruct (visit_elements _ _ _ _ Hcur (scan_spec _ _ _ _ _ _ Hscan))
      as [[-> _] | [(j & comp & _ & Hj & _ & _ & Hel)
                   | (j & comp & _ & Hj & _ & _ & _ & Hel)]]; [by left | ..];
      apply Hel in Hx.
    + destruct Hx as (k & _ & Hk). left. apply list_elem_of_lookup. eauto.
    + destruct Hx as [-> | (k & _ & _ & Hk)].
      * right. exists comp. split; [| done]. apply list_elem_of_lookup. eauto.
      * left. apply list_elem_of_lookup. eauto.
Qed.

(** C9.  [merge] returns on every vector with elements: with
    [merge_fuel X] or more fuel the run ends with the same memory and never
    reads outside the vector.  On the empty vector no run returns, whatever
    the fuel.  A run of the inner loop ends within one more step than the
    vector has elements, it leaves the vector as it is or one element
    shorter, and the output is not longer than the input. *)
Theorem merge_returns_unless_empty (X : list Interval) :
  (∀ fuel, merge_run fuel [] = None) ∧
  (X ≠ [] →
   ∃ m, mlist m = merge X ∧
        ∀ fuel, (merge_fuel X ≤ fuel)%nat → merge_run fuel X = Some m) ∧
  (∀ it cur m, is_Some (scan (S (length (mlist m))) it cur 0 m)) ∧
  (∀ fuel it cur m m',
     mlist m !! it = Some cur → scan fuel it cur 0 m = Some m' →
     m' = m ∨ S (length (mlist m')) = length (mlist m)) ∧
  (length (merge X) ≤ length X)%nat.
Proof.
  split_and!.
  - apply merge_run_empty.
  - intros HX. destruct (merge_run_total X HX) as (m & Hm & Hlist).
    exists m. split; [done |]. intros fuel Hle. unfold merge_run in *.
    by apply (sweep_fuel_mono (merge_fuel X)).
  - intros it cur m. apply scan_enough. lia.
  - intros fuel it cur m m' Hcur Hscan.
    pose proof (lookup_lt_Some _ _ _ Hcur) as Hlt.
    destruct (scan_post_length _ _ _ _ _ (scan_spec _ _ _ _ _ _ Hscan) Hlt)
      as [-> | Hlen]; [by left | right; lia].
  - destruct (merge_invariant
                (λ _ m, (length (mlist m) ≤ length X)%nat) X)
      as (m & _ & <- & Hinv); [| done | done].
    intros it m cur m' _ Hcur Hpost Hle.
    pose proof (lookup_lt_Some _ _ _ Hcur) as Hlt.
    destruct (scan_post_length _ _ _ _ _ Hpost Hlt) as [-> | Hlen]; lia.
Qed.

(** C10.  No call of [testMerge] hands a boolean to its caller: whatever
    the arguments, the outcome holds no returned value. *)
Theorem testMerge_returns_no_value
    (input expected : list Interval) (verbose : bool) :
  testMerge input expected verbose ≫= returned = None.
Proof.
  unfold testMerge.
  by destruct (std_equal same_bounds (merge input) expected).
Qed.

(** * Further properties of [merge] *)

Lemma covered2_app X Y a b :
  covered2 (X ++ Y) a b ↔ covered2 X a b ∨ covered2 Y a b.
Proof.
  unfold covered2. split.
  - intros (i & [Hi | Hi]%elem_of_app & Hc); [left | right]; by exists i.
  - intros [(i & Hi & Hc) | (i & Hi & Hc)]; exists i;
      (split; [apply elem_of_app; auto | done]).
Qed.

Lemma covered2_filter_wf X a b :
  a <= b → covered2 (filter wf X) a b ↔ covered2 X a b.
Proof.
  intros Hab. unfold covered2. split.
  - intros (i & [_ Hi]%list_elem_of_filter & Hc). by exists i.
  - intros (i & Hi & Hc). exists i. split; [| done].
    apply list_elem_of_filter. split; [| done]. unfold wf, covers in *. lia.
Qed.

(** For a well-formed interval, being a component only depends on the
    points and unit steps that are reached. *)
Lemma component_wf_ext X Y i :
  wf i →
  (∀ a b, a <= b <= a + 1 → covered2 X a b ↔ covered2 Y a b) →
  component X i ↔ component Y i.
Proof.
  intros Hwf Hext. unfold component, wf in *.
  assert (Hsteps : (∀ z, min i <= z < max i → covered2 X z (z + 1)) ↔
                   (∀ z, min i <= z < max i → covered2 Y z (z + 1))).
  { split; intros H z Hz; apply Hext, H; lia. }
  rewrite Hsteps, !(Hext (min i) (min i)), !(Hext (min i - 1) (min i)),
    !(Hext (max i) (max i + 1)) by lia.
  split; (intros [? | [? _]]; [by left | lia]).
Qed.

Lemma settled_of_separated X :
  Forall wf X → pairwise_separated X → settled (-1) X.
Proof.
  intros Hwf Hsep p q P Q _ Hpq HP HQ Hc.
  rewrite Forall_forall in Hwf.
  assert (HwP : wf P) by (apply Hwf, list_elem_of_lookup; eauto).
  specialize (Hsep p q P Q Hpq HP HQ).
  unfold separated, covers, key_lo, wf in *. lia.
Qed.

Lemma separated_of_settled X :
  Forall wf X → settled (-1) X → pairwise_separated X.
Proof.
  intros Hwf Hset p q P Q Hpq HP HQ. rewrite Forall_forall in Hwf.
  assert (wf P ∧ wf Q) as [HwP HwQ]
    by (split; apply Hwf, list_elem_of_lookup; eauto).
  pose proof (Hset p q P Q ltac:(lia) Hpq HP HQ) as H1.
  pose proof (Hset q p Q P ltac:(lia) ltac:(done) HQ HP) as H2.
  unfold separated, covers, key_lo, wf in *. lia.
Qed.

Lemma merge_NoDup X : NoDup (merge X).
Proof.
  apply NoDup_alt. intros p q P HP HQ.
  destruct (decide (p = q)) as [| Hpq]; [done | exfalso].
  apply (merge_settled X p q P P); [lia | done ..|].
  unfold covers, key_lo. lia.
Qed.

Lemma merge_same_components X Y :
  (∀ a b, b <= a + 1 → covered2 X a b ↔ covered2 Y a b) →
  merge X ≡ₚ merge Y.
Proof.
  intros Hext. apply NoDup_Permutation; [apply merge_NoDup .. |].
  intros i. rewrite !merge_component. by apply component_ext.
Qed.

(** X1.  The vector [merge] returns holds no interval twice, whatever the
    input. *)
Theorem merge_no_duplicates (X : list Interval) : NoDup (merge X).
Proof. apply merge_NoDup. Qed.

(** X2.  [merge] never reorders and never touches an upper bound: the upper
    bounds of the output, in order, are a subsequence of the upper bounds of
    the input. *)
Theorem merge_keeps_order_of_upper_bounds (X : list Interval) :
  max <$> merge X `sublist_of` max <$> X.
Proof.
  destruct (merge_invariant
              (λ _ m, max <$> mlist m `sublist_of` max <$> X) X)
    as (m & _ & <- & Hinv); [| done | done].
  intros it m cur m' _ Hcur Hpost Hsub.
  destruct (visit_elements _ _ _ _ Hcur Hpost)
    as [[-> _] | [(j & comp & _ & Hj & _ & Hl' & _)
                 | (j & comp & _ & Hj & _ & _ & Hl' & _)]]; [done | ..];
    rewrite Hl'; etrans; [| exact Hsub | | exact Hsub];
    rewrite list_fmap_delete.
  - apply sublist_delete.
  - rewrite list_fmap_insert. simpl.
    rewrite (list_insert_id (max <$> mlist m) j (max comp))
      by (by rewrite list_lookup_fmap, Hj).
    apply sublist_delete.
Qed.

(** X3.  Every interval of the output is an input interval whose lower bound
    may have been moved down: it has the upper bound of an input interval
    that lies inside it. *)
Theorem merge_output_extends_an_input (X : list Interval) :
  Forall (λ o, ∃ a, a ∈ X ∧ max o = max a ∧ contained a o) (merge X).
Proof.
  apply merge_Forall.
  - intros cur comp Hov _ (a & Ha & Hmax & Hin). exists a.
    unfold overlaps_below, contained in *. simpl. split_and!; [done | lia ..].
  - apply Forall_forall. intros x Hx. exists x.
    unfold contained. split_and!; [done | lia ..].
Qed.

(** X4.  Every input interval, reversed ones too, lies inside some interval
    of the output. *)
Theorem merge_input_inside_output (X : list Interval) :
  Forall (λ a, ∃ o, o ∈ merge X ∧ contained a o) X.
Proof.
  apply Forall_forall. intros a Ha.
  destruct (decide (min a <= max a)) as [Hwf | Hrev].
  - destruct (proj2 (merge_covered2 X (min a) (min a) ltac:(lia)))
      as (o & Ho & Hc).
    { exists a. unfold covers. split; [done | lia]. }
    exists o. split; [done |].
    apply (merge_absorbs X a o (min a)); [done | | done | done].
    unfold covers. lia.
  - destruct (proj2 (merge_covered2 X (min a) (max a) ltac:(lia)))
      as (o & Ho & Hc).
    { exists a. unfold covers. split; [done | lia]. }
    exists o. split; [done |]. unfold contained, covers in *. lia.
Qed.

(** X5.  When no input interval is reversed, no output interval is. *)
Theorem merge_keeps_well_formed (X : list Interval) :
  Forall wf X → Forall wf (merge X).
Proof. apply merge_wf. Qed.

Lemma merge_keeps_well_formed_witness :
  Forall wf [iv 1 5; iv 5 10; iv 20 20] ∧
  Forall wf (merge [iv 1 5; iv 5 10; iv 20 20]).
Proof.
  assert (Hwf : Forall wf [iv 1 5; iv 5 10; iv 20 20])
    by (repeat constructor; unfold wf; simpl; lia).
  split; [exact Hwf |]. exact (merge_keeps_well_formed _ Hwf).
Defined.

(** X6.  A vector of well-formed intervals is returned as it is, in the same
    order, exactly when its intervals are pairwise strictly apart. *)
Theorem merge_fixes_exactly_the_separated (X : list Interval) :
  Forall wf X → merge X = X ↔ pairwise_separated X.
Proof.
  intros Hwf. split.
  - intros Heq. apply separated_of_settled; [done |].
    rewrite <- Heq. apply merge_settled.
  - intros Hsep. by apply merge_of_settled, settled_of_separated.
Qed.

Lemma merge_fixes_exactly_the_separated_witness :
  Forall wf [iv 1 4; iv 5 10] ∧
  (merge [iv 1 4; iv 5 10] = [iv 1 4; iv 5 10] ↔
   pairwise_separated [iv 1 4; iv 5 10]).
Proof.
  assert (Hwf : Forall wf [iv 1 4; iv 5 10])
    by (repeat constructor; unfold wf; simpl; lia).
  split; [exact Hwf |]. exact (merge_fixes_exactly_the_separated _ Hwf).
Defined.

(** X7.  The output as a set, read off the input: a well-formed interval is
    in the output exactly when its lower bound is covered, every unit step
    between its bounds lies inside one input interval, and neither the step
    below its lower bound nor the step above its upper bound does; a
    reversed interval is in the output exactly when some input interval
    reaches from its lower bound or below to its upper bound or above and
    none reaches further. *)
Theorem merge_output_characterised (X : list Interval) (i : Interval) :
  i ∈ merge X ↔ component X i.
Proof. apply merge_component. Qed.

(** X8.  What [merge] does with reversed intervals: one is in the output
    exactly when it is in the input and no other input interval has a lower
    bound at or below its lower bound and an upper bound at or above its
    upper bound. *)
Theorem merge_reversed_survivors (X : list Interval) (i : Interval) :
  reversed i →
  i ∈ merge X ↔
  i ∈ X ∧ ∀ c, c ∈ X → min c <= min i → max i <= max c → c = i.
Proof.
  unfold reversed. intros Hrev. rewrite merge_component. unfold component.
  split.
  - intros [[? _] | (_ & (c0 & Hc0 & Hcov) & Hlo & Hhi)]; [lia |].
    assert (Hall : ∀ c, c ∈ X → min c <= min i → max i <= max c → c = i).
    { intros c Hc H1 H2. apply interval_eq.
      - destruct (decide (min c = min i)) as [| Hne]; [done |].
        destruct Hlo. exists c. unfold covers. split; [done | lia].
      - destruct (decide (max c = max i)) as [| Hne]; [done |].
        destruct Hhi. exists c. unfold covers. split; [done | lia]. }
    split; [| done]. unfold covers in Hcov.
    by rewrite <- (Hall c0 Hc0) by lia.
  - intros [Hi Hall]. right. split_and!; [done | ..].
    + exists i. unfold covers. split; [done | lia].
    + intros (c & Hc & Hcov). unfold covers in Hcov.
      rewrite (Hall c Hc) in Hcov by lia. lia.
    + intros (c & Hc & Hcov). unfold covers in Hcov.
      rewrite (Hall c Hc) in Hcov by lia. lia.
Qed.

Lemma merge_reversed_survivors_witness :
  reversed (iv 5 1) ∧
  (iv 5 1 ∈ merge [iv 5 1; iv 0 3; iv 4 2] ↔
   iv 5 1 ∈ [iv 5 1; iv 0 3; iv 4 2] ∧
   ∀ c, c ∈ [iv 5 1; iv 0 3; iv 4 2] →
        min c <= min (iv 5 1) → max (iv 5 1) <= max c → c = iv 5 1).
Proof.
  assert (Hrev : reversed (iv 5 1)) by (unfold reversed; simpl; lia).
  split; [exact Hrev |]. exact (merge_reversed_survivors _ _ Hrev).
Defined.

(** X9.  Reversed intervals have no influence on the well-formed part of
    the output: a well-formed interval is in the output exactly when it is
    in the output for the input without its reversed intervals. *)
Theorem merge_ignores_reversed (X : list Interval) (i : Interval) :
  wf i → i ∈ merge X ↔ i ∈ merge (filter wf X).
Proof.
  intros Hwf. rewrite !merge_component. apply component_wf_ext; [done |].
  intros a b Hab. symmetry. apply covered2_filter_wf. lia.
Qed.

Lemma merge_ignores_reversed_witness :
  wf (iv 1 10) ∧
  (iv 1 10 ∈ merge [iv 1 5; iv 9 2; iv 5 10] ↔
   iv 1 10 ∈ merge (filter wf [iv 1 5; iv 9 2; iv 5 10])).
Proof.
  assert (Hwf : wf (iv 1 10)) by (unfold wf; simpl; lia).
  split; [exact Hwf |]. exact (merge_ignores_reversed _ _ Hwf).
Defined.

Lemma scan_finds_first fuel it cur m j comp iter :
  (length (mlist m) - iter < fuel)%nat → (iter ≤ j)%nat →
  (∀ k c, (iter ≤ k < j)%nat → k ≠ it → mlist m !! k = Some c →
     ¬ mergeable cur c) →
  j ≠ it → mlist m !! j = Some comp → mergeable cur comp →
  scan fuel it cur iter m
  = Some (if decide (is_subset cur comp) then erase it m
          else erase it (assign j (mkInterval (min cur) (max comp)) m)).
Proof.
  intros Hfuel Hle Hbefore Hne Hj Hm.
  pose proof (lookup_lt_Some _ _ _ Hj) as Hlen.
  revert iter Hfuel Hle Hbefore.
  induction fuel as [| fuel IH]; intros iter Hfuel Hle Hbefore; [lia |].
  simpl. rewrite decide_True by lia.
  destruct (decide (it = iter)) as [Hit | Hit].
  - apply IH; [lia | lia |]. intros k c Hk. apply Hbefore. lia.
  - destruct (decide (iter = j)) as [-> | Hlt].
    + rewrite Hj. simpl. destruct (decide (is_subset cur comp)); [done |].
      rewrite decide_True; [done |]. by destruct Hm.
    + destruct (lookup_lt_is_Some_2 (mlist m) iter ltac:(lia)) as [c Hc].
      rewrite Hc. simpl.
      assert (Hnot : ¬ mergeable cur c)
        by (apply (Hbefore iter); [lia | done | done]).
      rewrite !decide_False by (intros ?; apply Hnot; by constructor).
      apply IH; [lia | lia |]. intros k c' Hk. apply Hbefore. lia.
Qed.

Lemma scan_finds_none fuel it cur m iter :
  (length (mlist m) - iter < fuel)%nat →
  (∀ k c, (iter ≤ k)%nat → k ≠ it → mlist m !! k = Some c →
     ¬ mergeable cur c) →
  scan fuel it cur iter m = Some m.
Proof.
  revert iter. induction fuel as [| fuel IH]; intros iter Hfuel Hnone; [lia |].
  simpl. case_decide as Hlt; [| done].
  case_decide as Hit.
  - apply IH; [lia |]. intros k c Hk. apply Hnone. lia.
  - destruct (lookup_lt_is_Some_2 (mlist m) iter Hlt) as [c Hc].
    rewrite Hc. simpl.
    assert (Hnot : ¬ mergeable cur c) by (apply (Hnone iter); done || lia).
    rewrite !decide_False by (intros ?; apply Hnot; by constructor).
    apply IH; [lia |]. intros k c' Hk. apply Hnone. lia.
Qed.

(** X10.  One run of the inner loop collapses the visited interval with the
    first other element, in vector order, that a rule applies to: it is
    erased, and under rule (b) that element gets its lower bound.  When no
    rule applies to any other element the vector stays as it is. *)
Theorem visit_collapses_with_first_match
    (fuel it : nat) (cur : Interval) (m : Mem) :
  (length (mlist m) < fuel)%nat →
  (∀ j comp, first_match it cur (mlist m) j comp →
     scan fuel it cur 0 m
     = Some (if decide (is_subset cur comp) then erase it m
             else erase it (assign j (mkInterval (min cur) (max comp)) m))) ∧
  ((∀ j comp, j ≠ it → mlist m !! j = Some comp → ¬ mergeable cur comp) →
   scan fuel it cur 0 m = Some m).
Proof.
  intros Hfuel. split.
  - intros j comp (Hne & Hj & Hm & Hfirst).
    apply scan_finds_first; [lia | lia | | done ..].
    intros k c Hk. apply Hfirst. lia.
  - intros Hnone. apply scan_finds_none; [lia |].
    intros k c _. apply Hnone.
Qed.

Lemma visit_collapses_with_first_match_witness :
  (length (mlist (enter [iv 2 6; iv 0 9; iv 5 7; iv 1 3])) < 5)%nat ∧
  first_match 3 (iv 1 3) [iv 2 6; iv 0 9; iv 5 7; iv 1 3] 0 (iv 2 6) ∧
  scan 5 3 (iv 1 3) 0 (enter [iv 2 6; iv 0 9; iv 5 7; iv 1 3])
  = Some {| caller_vec := [iv 2 6; iv 0 9; iv 5 7; iv 1 3];
            mlist := [iv 1 6; iv 0 9; iv 5 7] |}.
Proof.
  assert (Hfuel : (length (mlist (enter [iv 2 6; iv 0 9; iv 5 7; iv 1 3]))
                   < 5)%nat) by (simpl; lia).
  assert (Hfirst : first_match 3 (iv 1 3)
                     [iv 2 6; iv 0 9; iv 5 7; iv 1 3] 0 (iv 2 6)).
  { split_and!; [lia | done | | intros k c Hk; lia].
    right. unfold overlaps_below. simpl. lia. }
  split_and!; [exact Hfuel | exact Hfirst |].
  rewrite (proj1 (visit_collapses_with_first_match 5 3 (iv 1 3) _ Hfuel)
             0%nat (iv 2 6) Hfirst).
  vm_compute. reflexivity.
Defined.

(** X11.  Two well-formed intervals: when they are strictly apart both are
    returned, in their order; otherwise the one interval that spans both is
    returned. *)
Theorem merge_of_two (A B : Interval) :
  wf A → wf B →
  merge [A; B] = if decide (separated A B) then [A; B] else [hull A B].
Proof.
  destruct A as [a1 a2], B as [b1 b2].
  unfold wf, separated, hull, merge, merge_run, merge_fuel. simpl.
  intros HA HB.
  repeat (case_decide || simpl
          || match goal with
             | H : is_subset _ _ |- _ => unfold is_subset in H; simpl in H
             | H : ¬ is_subset _ _ |- _ => unfold is_subset in H; simpl in H
             | H : overlaps_below _ _ |- _ =>
                 unfold overlaps_below in H; simpl in H
             | H : ¬ overlaps_below _ _ |- _ =>
                 unfold overlaps_below in H; simpl in H
             end);
    try lia; try done; repeat f_equal; lia.
Qed.

Lemma merge_of_two_witness :
  wf (iv 1 5) ∧ wf (iv 5 10) ∧
  merge [iv 1 5; iv 5 10]
  = if decide (separated (iv 1 5) (iv 5 10)) then [iv 1 5; iv 5 10]
    else [hull (iv 1 5) (iv 5 10)].
Proof.
  assert (H1 : wf (iv 1 5)) by (unfold wf; simpl; lia).
  assert (H2 : wf (iv 5 10)) by (unfold wf; simpl; lia).
  split_and!; [exact H1 | exact H2 |]. exact (merge_of_two _ _ H1 H2).
Defined.

(** X12.  Merging can be done in batches: merging an already merged vector
    followed by further intervals gives the same intervals, up to their
    order, as merging everything at once. *)
Theorem merge_in_batches (X Y : list Interval) :
  merge (merge X ++ Y) ≡ₚ merge (X ++ Y).
Proof.
  apply merge_same_components. intros a b Hab.
  rewrite !covered2_app, merge_covered2 by done. done.
Qed.

(** X13.  Only the set of input intervals matters: two inputs with the same
    intervals, however often and in whatever order each occurs, give the
    same output up to the order of its intervals, so also the same number
    of intervals. *)
Theorem merge_respects_set_equality (X Y : list Interval) :
  set_equal X Y → merge X ≡ₚ merge Y.
Proof.
  intros HXY. apply merge_same_components.
  intros a b _. by apply covered2_elements.
Qed.

Lemma merge_respects_set_equality_witness :
  set_equal [iv 1 4; iv 2 6; iv 1 4] [iv 2 6; iv 1 4] ∧
  merge [iv 1 4; iv 2 6; iv 1 4] ≡ₚ merge [iv 2 6; iv 1 4].
Proof.
  assert (H : set_equal [iv 1 4; iv 2 6; iv 1 4] [iv 2 6; iv 1 4]).
  { intros i. rewrite !elem_of_cons, elem_of_nil. tauto. }
  split; [exact H |]. exact (merge_respects_set_equality _ _ H).
Defined.



(** X15.  [merge] returns its input as it is, position by position, or a
    strictly shorter vector: it never changes an interval without erasing
    one. *)
Theorem merge_unchanged_or_shorter (X : list Interval) :
  merge X = X ∨ (length (merge X) < length X)%nat.
Proof.
  destruct (merge_invariant
              (λ _ m, mlist m = X ∨ (length (mlist m) < length X)%nat) X)
    as (m & _ & <- & Hinv); [| by left | done].
  intros it m cur m' _ Hcur Hpost Hinv.
  pose proof (lookup_lt_Some _ _ _ Hcur) as Hlt.
  destruct (scan_post_length _ _ _ _ _ Hpost Hlt) as [-> | Hlen]; [done |].
  right. destruct Hinv as [<- | Hinv]; lia.
Qed.

(** * Further properties of [testMerge] and [printIntervals] *)


Lemma std_equal_same_length result expected equal :
  std_equal same_bounds result expected = Some equal →
  length result = length expected →
  equal = true ↔ result = expected.
Proof.
  intros Heq Hlen. split.
  - intros ->. by apply std_equal_true.
  - intros ->. rewrite std_equal_refl in Heq. congruence.
Qed.

Lemma printed_line_shape l s :
  s ∈ printIntervals l → ∃ t, s = String "["%char t.
Proof.
  unfold printIntervals. intros (i & -> & _)%list_elem_of_fmap.
  simpl. eauto.
Qed.

(** A line that is neither the start line, nor a header, nor the line of an
    interval is on the console exactly when the verdict holds it. *)
Lemma testMerge_verdict input expected verbose r s :
  testMerge input expected verbose = Some r →
  s ≠ start_line → (∀ t, s ≠ String "["%char t) → (∀ t, s ≠ String "-"%char t) →
  s ∈ console r ↔
  ∃ equal, std_equal same_bounds (merge input) expected = Some equal ∧
    s ∈ (if decide (length (merge input) ≠ length expected) then
           [failed_line;
            "Result set size: " +:+ pretty (length (merge input)) +:+
            ", Expected set size: " +:+ pretty (length expected);
            stars_line]
         else if negb equal then [failed_line; unequal_line; stars_line]
         else [success_line]).
Proof.
  unfold testMerge. intros Hr Hstart Hline Hhead.
  destruct (std_equal same_bounds (merge input) expected) as [equal |];
    simpl in Hr; [| done].
  injection Hr as <-. simpl. rewrite elem_of_cons, elem_of_app.
  assert (Hshown : s ∉
    (if verbose then
       ["----------- Input ----------"%string] ++ printIntervals input ++
       ["----------- Result ----------"%string] ++
       printIntervals (merge input) ++
       ["----------- Expected ----------"%string] ++ printIntervals expected
     else [])).
  { destruct verbose; [| by apply not_elem_of_nil].
    rewrite !elem_of_app, !list_elem_of_singleton.
    intros [H | [H | [H | [H | [H | H]]]]];
      try (by eapply Hhead);
      apply printed_line_shape in H as [t Ht]; by eapply Hline. }
  split.
  - intros [? | [? | Hin]]; [done | done |]. by exists equal.
  - intros (equal' & [= <-] & Hin). by right; right.
Qed.


(** X17.  The three reports of a defined call: the failure banner is
    printed exactly when the merged vector differs from the expected one;
    the size line, with the two sizes, exactly when their sizes differ; the
    content line exactly when the sizes agree and the vectors differ.  A
    size mismatch is never reported as a content mismatch. *)
Theorem testMerge_failure_reports
    (input expected : list Interval) (verbose : bool) (r : Outcome) :
  testMerge input expected verbose = Some r →
  (failed_line ∈ console r ↔ merge input ≠ expected) ∧
  ("Result set size: " +:+ pretty (length (merge input)) +:+
   ", Expected set size: " +:+ pretty (length expected) ∈ console r ↔
   length (merge input) ≠ length expected) ∧
  (unequal_line ∈ console r ↔
   length (merge input) = length expected ∧ merge input ≠ expected).
Proof.
  intros Hr. split_and!.
  - rewrite (testMerge_verdict _ _ _ _ _ Hr) by done. split.
    + intros (equal & Heq & Hin). case_decide as Hlen; [congruence |].
      destruct equal; simpl in Hin.
      * apply list_elem_of_singleton in Hin. done.
      * intros Hsame.
        by apply (std_equal_same_length _ _ _ Heq Hlen) in Hsame.
    + intros Hne.
      destruct (std_equal same_bounds (merge input) expected)
        as [equal |] eqn:Heq.
      * exists equal. split; [done |]. case_decide as Hlen; [by left |].
        destruct equal; [| by left].
        destruct Hne. by apply (std_equal_same_length _ _ _ Heq Hlen).
      * unfold testMerge in Hr. by rewrite Heq in Hr.
  - rewrite (testMerge_verdict _ _ _ _ _ Hr) by done. split.
    + intros (equal & Heq & Hin). case_decide as Hlen; [done | exfalso].
      destruct equal; simpl in Hin;
        rewrite ?elem_of_cons, ?elem_of_nil in Hin;
        unfold success_line, failed_line, unequal_line, stars_line in Hin;
        simpl in Hin; intuition discriminate.
    + intros Hlen.
      destruct (std_equal same_bounds (merge input) expected)
        as [equal |] eqn:Heq.
      * exists equal. split; [done |]. rewrite decide_True by done.
        by right; left.
      * unfold testMerge in Hr. by rewrite Heq in Hr.
  - rewrite (testMerge_verdict _ _ _ _ _ Hr) by done. split.
    + intros (equal & Heq & Hin). case_decide as Hlen.
      * rewrite !elem_of_cons, elem_of_nil in Hin.
        destruct Hin as [? | [? | [? | []]]]; done.
      * split; [done |].
        destruct equal; simpl in Hin.
        -- apply list_elem_of_singleton in Hin. done.
        -- intros Hsame.
           by apply (std_equal_same_length _ _ _ Heq Hlen) in Hsame.
    + intros [Hlen Hne].
      destruct (std_equal same_bounds (merge input) expected)
        as [equal |] eqn:Heq.
      * exists equal. split; [done |]. rewrite decide_False by auto.
        destruct equal; [| by right; left].
        destruct Hne. by apply (std_equal_same_length _ _ _ Heq Hlen).
      * unfold testMerge in Hr. by rewrite Heq in Hr.
Qed.

Lemma testMerge_failure_reports_witness :
  testMerge [iv 1 5; iv 5 10] [iv 1 5; iv 5 10] false
  = Some {| console := [start_line; failed_line;
                        "Result set size: 1, Expected set size: 2"%string;
                        stars_line];
            returned := None |} ∧
  (failed_line ∈ [start_line; failed_line;
                  "Result set size: 1, Expected set size: 2"%string;
                  stars_line] ↔
   merge [iv 1 5; iv 5 10] ≠ [iv 1 5; iv 5 10]).
Proof.
  assert (Hr : testMerge [iv 1 5; iv 5 10] [iv 1 5; iv 5 10] false
               = Some {| console := [start_line; failed_line;
                           "Result set size: 1, Expected set size: 2"%string;
                           stars_line];
                         returned := None |})
    by (vm_compute; reflexivity).
  split; [exact Hr |].
  exact (proj1 (testMerge_failure_reports _ _ _ _ Hr)).
Defined.

(** ** The printed lines *)

Lemma digit_is_not c :
  c ≠ "0"%char → c ≠ "1"%char → c ≠ "2"%char → c ≠ "3"%char →
  c ≠ "4"%char → c ≠ "5"%char → c ≠ "6"%char → c ≠ "7"%char →
  c ≠ "8"%char → c ≠ "9"%char → ∀ d, pretty_N_char d ≠ c.
Proof.
  intros ? ? ? ? ? ? ? ? ? ? d. unfold pretty_N_char.
  repeat case_match; congruence.
Qed.

Lemma lacks_pretty_N_go c x s :
  (∀ d, pretty_N_char d ≠ c) → lacks c s → lacks c (pretty_N_go x s).
Proof.
  intros Hdigit. revert s.
  induction (N.lt_wf_0 x) as [x _ IH]; intros s Hs.
  destruct (decide (x = 0)%N) as [-> | Hpos]; [by rewrite pretty_N_go_0 |].
  rewrite pretty_N_go_step by lia. apply IH.
  - apply N.div_lt; lia.
  - simpl. split; [apply Hdigit | done].
Qed.

Lemma lacks_pretty_Z c (z : Z) :
  c ≠ "-"%char → (∀ d, pretty_N_char d ≠ c) → lacks c (pretty z).
Proof.
  intros Hdash Hdigit.
  assert (Hzero : lacks c "0") by (split; [apply (Hdigit 0%N) | done]).
  assert (HN : ∀ p, lacks c (pretty (N.pos p))).
  { intros p. unfold pretty, pretty_N. case_decide; [done |].
    by apply lacks_pretty_N_go. }
  destruct z as [| p | p]; [done | apply HN |].
  unfold pretty, pretty_Z. simpl. split; [congruence | apply HN].
Qed.

(** Two texts that continue with the same character and do not hold it
    before are cut at the same place. *)
Lemma split_at c a a' t t' :
  lacks c a → lacks c a' →
  a +:+ String c t = a' +:+ String c t' → a = a' ∧ t = t'.
Proof.
  revert a'. induction a as [| x a IH]; intros [| x' a']; simpl.
  - intros _ _ [= ->]. done.
  - intros _ [Hx' _] [= Hc _]. congruence.
  - intros [Hx _] _ [= Hc _]. congruence.
  - intros [_ Ha] [_ Ha'] [= -> Heq].
    destruct (IH a' Ha Ha' Heq) as [-> ->]. done.
Qed.

Lemma printed_line_inj (i i' : Interval) :
  "[" +:+ pretty (min i) +:+ "," +:+ pretty (max i) +:+ "]"
  = "[" +:+ pretty (min i') +:+ "," +:+ pretty (max i') +:+ "]" →
  i = i'.
Proof.
  assert (Hcomma : ∀ z : Z, lacks "," (pretty z)).
  { intros z. apply lacks_pretty_Z; [done |]. by apply digit_is_not. }
  assert (Hclose : ∀ z : Z, lacks "]" (pretty z)).
  { intros z. apply lacks_pretty_Z; [done |]. by apply digit_is_not. }
  change ("[" +:+ pretty (min i) +:+ "," +:+ pretty (max i) +:+ "]")
    with (String "[" (pretty (min i) +:+
                      String "," (pretty (max i) +:+ String "]" ""))).
  change ("[" +:+ pretty (min i') +:+ "," +:+ pretty (max i') +:+ "]")
    with (String "[" (pretty (min i') +:+
                      String "," (pretty (max i') +:+ String "]" ""))).
  intros [= Heq].
  apply split_at in Heq as [Hmin Hrest]; [| apply Hcomma ..].
  apply split_at in Hrest as [Hmax _]; [| apply Hclose ..].
  apply interval_eq; by apply (inj pretty).
Qed.

(** X18.  [printIntervals] writes one line per interval, in the order of the
    vector, and the lines tell the vector: two vectors printed alike are the
    same vector. *)
Theorem printIntervals_tells_the_vector (l1 l2 : list Interval) :
  printIntervals l1 = printIntervals l2 → l1 = l2.
Proof.
  unfold printIntervals. intros Heq.
  refine (list_fmap_eq_inj _ _ l1 l2 Heq).
  intros i i'. apply printed_line_inj.
Qed.

Lemma printIntervals_tells_the_vector_witness :
  printIntervals [iv 1 5; iv (-3) 10] = printIntervals [iv 1 5; iv (-3) 10] ∧
  printIntervals [iv 1 5; iv (-3) 10] = ["[1,5]"; "[-3,10]"]%string ∧
  [iv 1 5; iv (-3) 10] = [iv 1 5; iv (-3) 10].
Proof.
  split_and!; [reflexivity | vm_compute; reflexivity |].
  exact (printIntervals_tells_the_vector _ _ eq_refl).
Defined.
